(** * pirido: the todo state engine and the AI response protocol

    A shallow embedding of the TypeScript sources

      - [types.ts]        (entity shapes, [clampPriority]),
      - [storage.ts]      ([createInitialState], [migrateState], [loadState]),
      - [hooks/useAppState.ts] (the state transitions passed to [setState]),
      - [openai.ts]       ([clampRankPriority], [normalizeApiKey],
                           [toJsonText], [callResponsesApi],
                           [generateSubTasks], [rankTodosByAi]),

    followed by the properties the specification states about them.

    Modelling conventions.
      - A JavaScript string is the byte string of its UTF-8 encoding
        ([string]); [trim] removes the ECMAScript WhiteSpace and
        LineTerminator code points.
      - A JavaScript number is [number]: NaN, the two infinities, or a finite
        value kept as an exact fraction (the two zeros are identified).
      - A value of type [unknown] is a [value]: what [JSON.parse] can
        produce, plus [undefined].
      - A plain object used as a dictionary ([Record<string, T>]) is a
        [gmap string T] over its own keys; ids are assumed not to collide
        with member names of [Object.prototype].
      - [newId()] and [new Date().toISOString()] are inputs of the
        transitions that call them.
      - An [async] function is a [prog]: it returns, throws, or issues one
        [fetch] and continues with the answer. *)

From stdpp Require Import gmap strings list fin_maps pretty.
From Stdlib Require Import ZArith Ascii.

Open Scope Z_scope.
Set Warnings "-register-all,-clear-no-such-hyp".

(** ** Strings *)

(** One leading white-space code point, in UTF-8: TAB, LF, VT, FF, CR, SP,
    U+00A0, U+1680, U+2000..U+200A, U+2028, U+2029, U+202F, U+205F, U+3000,
    U+FEFF. The result is the rest of the bytes. *)
Definition strip_ws_head (l : list N) : option (list N) :=
  match l with
  | (9 | 10 | 11 | 12 | 13 | 32)%N :: r => Some r
  | 194%N :: 160%N :: r => Some r
  | 225%N :: 154%N :: 128%N :: r => Some r
  | 226%N :: 128%N :: c :: r =>
      if ((128 <=? c) && (c <=? 138) || (c =? 168) || (c =? 169) || (c =? 175))%N
      then Some r else None
  | 226%N :: 129%N :: 159%N :: r => Some r
  | 227%N :: 128%N :: 128%N :: r => Some r
  | 239%N :: 187%N :: 191%N :: r => Some r
  | _ => None
  end.

(** The same code points read from the end: the argument is the byte list
    reversed. *)
Definition strip_ws_last (l : list N) : option (list N) :=
  match l with
  | (9 | 10 | 11 | 12 | 13 | 32)%N :: r => Some r
  | 160%N :: 194%N :: r => Some r
  | 128%N :: 154%N :: 225%N :: r => Some r
  | 159%N :: 129%N :: 226%N :: r => Some r
  | 128%N :: 128%N :: 227%N :: r => Some r
  | 191%N :: 187%N :: 239%N :: r => Some r
  | c :: 128%N :: 226%N :: r =>
      if ((128 <=? c) && (c <=? 138) || (c =? 168) || (c =? 169) || (c =? 175))%N
      then Some r else None
  | _ => None
  end.

Fixpoint strip_while (strip : list N → option (list N)) (fuel : nat) (l : list N)
  : list N :=
  match fuel with
  | O => l
  | S fuel' =>
      match strip l with
      | Some r => strip_while strip fuel' r
      | None => l
      end
  end.

Definition bytes_of (s : string) : list N := N_of_ascii <$> String.list_ascii_of_string s.
Definition of_bytes (l : list N) : string := String.string_of_list_ascii (ascii_of_N <$> l).

(** [String.prototype.trim]. *)
Definition trim (s : string) : string :=
  let l := bytes_of s in
  let l1 := strip_while strip_ws_head (length l) l in
  of_bytes (rev (strip_while strip_ws_last (length l1) (rev l1))).

(** [!s] on a string: only the empty string is falsy. *)
Definition is_empty (s : string) : bool := bool_decide (s = "").

(** ** Numbers *)

Inductive number :=
  | NaN
  | Infinity (negative : bool)
  | Finite (num : Z) (den : positive).

Definition of_Z (z : Z) : number := Finite z 1.

Definition Number_isInteger (n : number) : bool :=
  match n with
  | Finite a d => bool_decide (a mod Z.pos d = 0)
  | _ => false
  end.

(** [n <= k] and [n >= k] for an integer constant [k]. *)
Definition num_le (n : number) (k : Z) : bool :=
  match n with
  | NaN => false
  | Infinity negative => negative
  | Finite a d => a <=? k * Z.pos d
  end.

Definition num_ge (n : number) (k : Z) : bool :=
  match n with
  | NaN => false
  | Infinity negative => negb negative
  | Finite a d => k * Z.pos d <=? a
  end.

(** The integer a number denotes, once [Number_isInteger] holds. *)
Definition to_Z (n : number) : Z :=
  match n with
  | Finite a d => a / Z.pos d
  | _ => 0
  end.

(** Round-to-nearest, ties-to-even, of the fraction [a / d] to binary64. *)
Definition round_binary64 (a : Z) (d : positive) : number :=
  if a =? 0 then Finite 0 1 else
  let neg := a <? 0 in
  let m := Z.abs a in
  let e0 := Z.log2 m - Z.log2 (Z.pos d) in
  let below := if 0 <=? e0 then m <? Z.pos d * 2 ^ e0 else m * 2 ^ (- e0) <? Z.pos d in
  let e := Z.max (if below then e0 - 1 else e0) (-1022) in
  let s := e - 52 in
  let '(p, q) := if s <? 0 then (m * 2 ^ (- s), Z.pos d) else (m, Z.pos d * 2 ^ s) in
  let k := p / q in
  let r := p mod q in
  let k' := if 2 * r <? q then k
            else if q <? 2 * r then k + 1
            else if Z.even k then k else k + 1 in
  if (0 <=? s) && (2 ^ 1024 <=? k' * 2 ^ s) then Infinity neg
  else
    let sign := if neg then -1 else 1 in
    if s <? 0 then
      let g := Z.gcd k' (2 ^ (- s)) in
      Finite (sign * (k' / g)) (Z.to_pos (2 ^ (- s) / g))
    else Finite (sign * k' * 2 ^ s) 1.

(** *** [StringToNumber] (the StringNumericLiteral grammar) *)

Definition digit_value (base : N) (c : N) : option Z :=
  let v := (if (48 <=? c) && (c <=? 57) then Some (c - 48)
            else if (97 <=? c) && (c <=? 102) then Some (c - 87)
            else if (65 <=? c) && (c <=? 70) then Some (c - 55)
            else None)%N in
  match v with
  | Some n => if (n <? base)%N then Some (Z.of_N n) else None
  | None => None
  end.

(** The longest run of digits at the head: its value (seeded with [acc]),
    its length, and the rest. *)
Fixpoint span_digits (base : N) (acc : Z) (cnt : Z) (l : list N) : Z * Z * list N :=
  match l with
  | c :: r =>
      match digit_value base c with
      | Some v => span_digits base (acc * Z.of_N base + v) (cnt + 1) r
      | None => (acc, cnt, l)
      end
  | [] => (acc, cnt, l)
  end.

(** A literal that is digits only, in the given base, at least one. *)
Definition parse_radix (base : N) (l : list N) : option number :=
  match span_digits base 0 0 l with
  | (v, cnt, []) => if 0 <? cnt then Some (round_binary64 v 1) else None
  | _ => None
  end.

(** The optional exponent part, which must reach the end of the literal. *)
Definition parse_exponent (l : list N) : option Z :=
  match l with
  | [] => Some 0
  | (101 | 69)%N :: r =>
      let '(neg, r') := match r with
                        | 45%N :: r' => (true, r')
                        | 43%N :: r' => (false, r')
                        | _ => (false, r)
                        end in
      match span_digits 10 0 0 r' with
      | (v, cnt, []) => if 0 <? cnt then Some (if neg then - v else v) else None
      | _ => None
      end
  | _ => None
  end.

Definition scale10 (neg : bool) (mant : Z) (e : Z) : number :=
  let m := if neg then - mant else mant in
  if 0 <=? e then round_binary64 (m * 10 ^ e) 1
  else round_binary64 m (Z.to_pos (10 ^ (- e))).

(** StrUnsignedDecimalLiteral. *)
Definition parse_unsigned_decimal (neg : bool) (l : list N) : option number :=
  if bool_decide (l = bytes_of "Infinity") then Some (Infinity neg) else
  let '(ip, icnt, r) := span_digits 10 0 0 l in
  match r with
  | 46%N :: r1 =>
      let '(m, fcnt, r2) := span_digits 10 ip 0 r1 in
      if (icnt =? 0) && (fcnt =? 0) then None
      else match parse_exponent r2 with
           | Some e => Some (scale10 neg m (e - fcnt))
           | None => None
           end
  | _ =>
      if icnt =? 0 then None
      else match parse_exponent r with
           | Some e => Some (scale10 neg ip e)
           | None => None
           end
  end.

Definition parse_numeric_literal (l : list N) : option number :=
  match l with
  | 48%N :: (120 | 88)%N :: r => parse_radix 16 r
  | 48%N :: (111 | 79)%N :: r => parse_radix 8 r
  | 48%N :: (98 | 66)%N :: r => parse_radix 2 r
  | 45%N :: r => parse_unsigned_decimal true r
  | 43%N :: r => parse_unsigned_decimal false r
  | _ => parse_unsigned_decimal false l
  end.

Definition StringToNumber (s : string) : number :=
  let t := trim s in
  if is_empty t then of_Z 0
  else match parse_numeric_literal (bytes_of t) with
       | Some n => n
       | None => NaN
       end.

(** ** Values of type [unknown] *)

Inductive value :=
  | VUndefined
  | VNull
  | VBool (b : bool)
  | VNumber (n : number)
  | VString (s : string)
  | VArray (items : list value)
  | VObject (fields : list (string * value)).

(** [typeof v === "string"], [Array.isArray(v)], [Boolean(v)]. *)
Definition is_string (v : value) : bool :=
  match v with VString _ => true | _ => false end.

Definition Array_isArray (v : value) : bool :=
  match v with VArray _ => true | _ => false end.

Definition truthy (v : value) : bool :=
  match v with
  | VUndefined | VNull => false
  | VBool b => b
  | VNumber NaN => false
  | VNumber (Finite a _) => negb (a =? 0)
  | VNumber (Infinity _) => true
  | VString s => negb (is_empty s)
  | VArray _ | VObject _ => true
  end.

(** [typeof v === "object"] without the null check. *)
Definition typeof_object (v : value) : bool :=
  match v with VNull | VArray _ | VObject _ => true | _ => false end.

(** [isObject] of storage.ts: [typeof value === "object" && value !== null]. *)
Definition isObject (v : value) : bool :=
  typeof_object v && negb (match v with VNull => true | _ => false end).

(** [Object.entries]: own enumerable properties; an array has its indices.
    A key listed twice in [fields] counts once, with its first binding. *)
Definition entries (v : value) : list (string * value) :=
  match v with
  | VObject fields => map_to_list (list_to_map fields : gmap string value)
  | VArray items => imap (λ i x, (pretty i, x)) items
  | _ => []
  end.

(** Property read [v.k] on a value that passed [isObject]; a missing property
    reads as [undefined]. *)
Definition get (v : value) (k : string) : value :=
  match v with
  | VObject fields => default VUndefined ((list_to_map fields : gmap string value) !! k)
  | VArray items =>
      if bool_decide (k = "length") then VNumber (of_Z (Z.of_nat (length items)))
      else default VUndefined ((list_to_map (entries v) : gmap string value) !! k)
  | _ => VUndefined
  end.

(** [k in v] for an object or array [v]. *)
Definition has_property (v : value) (k : string) : bool :=
  match v with
  | VObject fields => bool_decide (is_Some ((list_to_map fields : gmap string value) !! k))
  | VArray items =>
      bool_decide (k = "length")
      || bool_decide (is_Some ((list_to_map (entries v) : gmap string value) !! k))
  | _ => false
  end.

(** [Number(v)]. An object converts through its string form: a plain object
    gives "[object Object]", hence NaN; an array joins its elements with
    commas, so only an empty or one-element array can give a number. *)
Fixpoint Number (v : value) : number :=
  match v with
  | VUndefined => NaN
  | VNull => of_Z 0
  | VBool b => of_Z (if b then 1 else 0)
  | VNumber n => n
  | VString s => StringToNumber s
  | VArray [] => of_Z 0
  | VArray [x] =>
      match x with
      | VUndefined | VNull => of_Z 0
      | VBool _ => NaN
      | _ => Number x
      end
  | VArray _ => NaN
  | VObject _ => NaN
  end.

(** ** types.ts *)

Definition APP_SCHEMA_VERSION : Z := 1.
Definition DEFAULT_MODEL : string := "gpt-4.1-mini".

Definition clampPriority (v : value) : Z :=
  let parsed := Number v in
  if negb (Number_isInteger parsed) then 0
  else if num_le parsed 0 then 0
  else if num_le parsed 1 then 1
  else if num_ge parsed 5 then 5
  else to_Z parsed.

(** ** openai.ts: the ranking clamp *)

Definition clampRankPriority (v : value) : Z :=
  let parsed := Number v in
  if negb (Number_isInteger parsed) then 3
  else if num_le parsed 1 then 1
  else if num_ge parsed 5 then 5
  else to_Z parsed.

(** ** types.ts: the entities *)

Module SubTask.
Record t := mk {
  id : string;
  parentId : string;
  text : string;
  completed : bool;
  createdAt : string;
  (* [source] has the single value "ai" *)
}.
Definition with_completed (b : bool) (x : t) : t :=
  mk (id x) (parentId x) (text x) b (createdAt x).
Definition with_text (s : string) (x : t) : t :=
  mk (id x) (parentId x) s (completed x) (createdAt x).
End SubTask.

Module Todo.
Record t := mk {
  id : string;
  text : string;
  priority : Z;
  completed : bool;
  createdAt : string;
  subTaskIds : list string;
}.
Definition with_text (s : string) (x : t) : t :=
  mk (id x) s (priority x) (completed x) (createdAt x) (subTaskIds x).
Definition with_priority (p : Z) (x : t) : t :=
  mk (id x) (text x) p (completed x) (createdAt x) (subTaskIds x).
Definition with_completed (b : bool) (x : t) : t :=
  mk (id x) (text x) (priority x) b (createdAt x) (subTaskIds x).
Definition with_subTaskIds (l : list string) (x : t) : t :=
  mk (id x) (text x) (priority x) (completed x) (createdAt x) l.
End Todo.

Record AppSettings := mkSettings {
  openaiApiKey : string;
  model : string;
}.

(** [Partial<AppSettings>]: each field present or not. *)
Record PartialSettings := mkPartial {
  partial_openaiApiKey : option string;
  partial_model : option string;
}.

(** The aggregate. The sub-task mapping is typed [Record<string, SubTask>];
    the loader assigns it by a cast, so the type of its entries is a
    parameter: [SubTask.t] in the state engine, [value] right after a load. *)
Record AppStateOf (S : Type) := mkState {
  todos : gmap string Todo.t;
  subTasks : gmap string S;
  todoOrder : list string;
  collapsedTodoIds : list string;
  settings : AppSettings;
  schemaVersion : Z;
}.
Arguments mkState {S}.
Arguments todos {S}.
Arguments subTasks {S}.
Arguments todoOrder {S}.
Arguments collapsedTodoIds {S}.
Arguments settings {S}.
Arguments schemaVersion {S}.

Abbreviation AppState := (AppStateOf SubTask.t).

Definition with_todos {S} (m : gmap string Todo.t) (st : AppStateOf S) : AppStateOf S :=
  mkState m (subTasks st) (todoOrder st) (collapsedTodoIds st) (settings st) (schemaVersion st).
Definition with_subTasks {S S'} (m : gmap string S') (st : AppStateOf S) : AppStateOf S' :=
  mkState (todos st) m (todoOrder st) (collapsedTodoIds st) (settings st) (schemaVersion st).
Definition with_todoOrder {S} (l : list string) (st : AppStateOf S) : AppStateOf S :=
  mkState (todos st) (subTasks st) l (collapsedTodoIds st) (settings st) (schemaVersion st).
Definition with_collapsedTodoIds {S} (l : list string) (st : AppStateOf S) : AppStateOf S :=
  mkState (todos st) (subTasks st) (todoOrder st) l (settings st) (schemaVersion st).
Definition with_settings {S} (s : AppSettings) (st : AppStateOf S) : AppStateOf S :=
  mkState (todos st) (subTasks st) (todoOrder st) (collapsedTodoIds st) s (schemaVersion st).

(** ** Array helpers *)

(** [l.indexOf(x)]: the first index holding [x], or -1. *)
Fixpoint indexOf_from (i : Z) (l : list string) (x : string) : Z :=
  match l with
  | [] => -1
  | y :: l' => if bool_decide (y = x) then i else indexOf_from (i + 1) l' x
  end.
Definition indexOf (l : list string) (x : string) : Z := indexOf_from 0 l x.

(** [l.includes(x)]. *)
Definition includes (l : list string) (x : string) : bool := bool_decide (x ∈ l).

(** [l.filter((x, index) => f x index)]. *)
Fixpoint filter_indexed_from {A} (i : Z) (f : A → Z → bool) (l : list A) : list A :=
  match l with
  | [] => []
  | x :: l' =>
      if f x i then x :: filter_indexed_from (i + 1) f l'
      else filter_indexed_from (i + 1) f l'
  end.
Definition filter_indexed {A} (f : A → Z → bool) (l : list A) : list A :=
  filter_indexed_from 0 f l.

(** [l.splice(start, deleteCount, ...items)], returning the array left. *)
Definition splice {A} (start deleteCount : Z) (items : list A) (l : list A) : list A :=
  let len := Z.of_nat (length l) in
  let actualStart := if start <? 0 then Z.max (len + start) 0 else Z.min start len in
  let actualDeleteCount := Z.min (Z.max deleteCount 0) (len - actualStart) in
  take (Z.to_nat actualStart) l ++ items
    ++ drop (Z.to_nat (actualStart + actualDeleteCount)) l.

(** ** hooks/useAppState.ts: the transitions *)

Definition createTodo (id createdAt : string) (text : string) (prev : AppState) : AppState :=
  with_todoOrder (id :: todoOrder prev)
    (with_todos (<[id := Todo.mk id text 0 false createdAt []]> (todos prev)) prev).

(** The filter predicates of [toggleTodoCompleted]:
    [Boolean(item) && !item.completed] and [Boolean(item) && item.completed]. *)
Definition is_unchecked (m : gmap string Todo.t) (id : string) : bool :=
  match m !! id with Some item => negb (Todo.completed item) | None => false end.
Definition is_checked (m : gmap string Todo.t) (id : string) : bool :=
  match m !! id with Some item => Todo.completed item | None => false end.

(** One round of the cascade loop. *)
Definition complete_subTask (acc : gmap string SubTask.t) (subTaskId : string)
  : gmap string SubTask.t :=
  match acc !! subTaskId with
  | None => acc
  | Some subTask =>
      if SubTask.completed subTask then acc
      else <[subTaskId := SubTask.with_completed true subTask]> acc
  end.

Definition toggleTodoCompleted (todoId : string) (prev : AppState) : AppState :=
  match todos prev !! todoId with
  | None => prev
  | Some todo =>
      let nextCompleted := negb (Todo.completed todo) in
      let withoutTarget := filter (λ id, id ≠ todoId) (todoOrder prev) in
      let uncheckedIds := filter (λ id, is_unchecked (todos prev) id) withoutTarget in
      let checkedIds := filter (λ id, is_checked (todos prev) id) withoutTarget in
      let nextTodoOrder :=
        if nextCompleted then uncheckedIds ++ [todoId] ++ checkedIds
        else todoOrder prev in
      let nextSubTasks :=
        if nextCompleted && (0 <? Z.of_nat (length (Todo.subTaskIds todo)))
        then foldl complete_subTask (subTasks prev) (Todo.subTaskIds todo)
        else subTasks prev in
      mkState (<[todoId := Todo.with_completed nextCompleted todo]> (todos prev))
        nextSubTasks nextTodoOrder
        (collapsedTodoIds prev) (settings prev) (schemaVersion prev)
  end.

Definition deleteTodo (todoId : string) (prev : AppState) : AppState :=
  match todos prev !! todoId with
  | None => prev
  | Some todo =>
      let nextTodos := delete todoId (todos prev) in
      let nextSubTasks :=
        foldl (λ acc subTaskId, delete subTaskId acc) (subTasks prev) (Todo.subTaskIds todo) in
      mkState nextTodos nextSubTasks
        (filter (λ id, id ≠ todoId) (todoOrder prev))
        (filter (λ id, id ≠ todoId) (collapsedTodoIds prev))
        (settings prev) (schemaVersion prev)
  end.

(** The loop of [addGeneratedSubTasks]: [fresh k] is what [newId()] and
    [new Date().toISOString()] give in round [k]. The accumulator is the
    pair ([nextSubTasks], [appendedSubTaskIds]). *)
Fixpoint append_generated (fresh : nat → string * string) (k : nat) (todoId : string)
    (items : list string) (acc : gmap string SubTask.t * list string)
  : gmap string SubTask.t * list string :=
  match items with
  | [] => acc
  | item :: rest =>
      let '(id, createdAt) := fresh k in
      let subTask := SubTask.mk id todoId (trim item) false createdAt in
      append_generated fresh (S k) todoId rest (<[id := subTask]> acc.1, acc.2 ++ [id])
  end.

Definition addGeneratedSubTasks (fresh : nat → string * string) (todoId : string)
    (items : list string) (prev : AppState) : AppState :=
  if Z.of_nat (length items) =? 0 then prev
  else
    match todos prev !! todoId with
    | None => prev
    | Some todo =>
        let '(nextSubTasks, appendedSubTaskIds) :=
          append_generated fresh 0 todoId items (subTasks prev, []) in
        let nextTodo := Todo.with_subTaskIds (Todo.subTaskIds todo ++ appendedSubTaskIds) todo in
        with_todos (<[todoId := nextTodo]> (todos prev)) (with_subTasks nextSubTasks prev)
    end.

Definition toggleSubTaskCompleted (subTaskId : string) (prev : AppState) : AppState :=
  match subTasks prev !! subTaskId with
  | None => prev
  | Some target =>
      with_subTasks
        (<[subTaskId := SubTask.with_completed (negb (SubTask.completed target)) target]>
           (subTasks prev)) prev
  end.

Definition updateTodoText (todoId : string) (text : string) (prev : AppState) : AppState :=
  let nextText := trim text in
  if is_empty nextText then prev
  else
    match todos prev !! todoId with
    | None => prev
    | Some todo => with_todos (<[todoId := Todo.with_text nextText todo]> (todos prev)) prev
    end.

Definition updateSubTaskText (subTaskId : string) (text : string) (prev : AppState) : AppState :=
  let nextText := trim text in
  if is_empty nextText then prev
  else
    match subTasks prev !! subTaskId with
    | None => prev
    | Some target =>
        with_subTasks (<[subTaskId := SubTask.with_text nextText target]> (subTasks prev)) prev
    end.

Definition deleteSubTask (subTaskId : string) (prev : AppState) : AppState :=
  match subTasks prev !! subTaskId with
  | None => prev
  | Some target =>
      let nextSubTasks := delete subTaskId (subTasks prev) in
      match todos prev !! SubTask.parentId target with
      | None => with_subTasks nextSubTasks prev
      | Some parent =>
          with_todos
            (<[Todo.id parent :=
                 Todo.with_subTaskIds
                   (filter (λ id, id ≠ subTaskId) (Todo.subTaskIds parent)) parent]>
               (todos prev))
            (with_subTasks nextSubTasks prev)
      end
  end.

Definition updateSettings (partial : PartialSettings) (prev : AppState) : AppState :=
  with_settings
    (mkSettings (default (openaiApiKey (settings prev)) (partial_openaiApiKey partial))
                (default (model (settings prev)) (partial_model partial)))
    prev.

Definition clearSettings (prev : AppState) : AppState :=
  with_settings (mkSettings "" (model (settings prev))) prev.

(** One round of the priority loop of [reorderTodos]. *)
Definition assign_priority (id : string) (priority : Z) (nextTodos : gmap string Todo.t)
  : gmap string Todo.t :=
  match nextTodos !! id with
  | None => nextTodos
  | Some todo => <[id := Todo.with_priority priority todo]> nextTodos
  end.

Definition reorderTodos (orderedTodoIds : list string) (priorities : option (gmap string Z))
    (prev : AppState) : AppState :=
  let existing : gset string := list_to_set (todoOrder prev) in
  let dedupedValid :=
    filter_indexed
      (λ id index, bool_decide (id ∈ existing) && (indexOf orderedTodoIds id =? index))
      orderedTodoIds in
  let remaining := filter (λ id, negb (includes dedupedValid id)) (todoOrder prev) in
  let nextTodos :=
    match priorities with
    | Some ps => map_fold assign_priority (todos prev) ps
    | None => todos prev
    end in
  with_todoOrder (dedupedValid ++ remaining) (with_todos nextTodos prev).

Definition moveTodoToIndex (draggedTodoId : string) (nextIndex : Z) (prev : AppState)
  : AppState :=
  if nextIndex <? 0 then prev
  else
    let fromIndex := indexOf (todoOrder prev) draggedTodoId in
    if (fromIndex <? 0) || (Z.of_nat (length (todoOrder prev)) <? nextIndex) then prev
    else
      let nextOrder := splice fromIndex 1 [] (todoOrder prev) in
      let adjustedIndex := if fromIndex <? nextIndex then nextIndex - 1 else nextIndex in
      let nextOrder := splice adjustedIndex 0 [draggedTodoId] nextOrder in
      with_todoOrder nextOrder prev.

Definition toggleTodoCollapsed (todoId : string) (prev : AppState) : AppState :=
  match todos prev !! todoId with
  | None => prev
  | Some _ =>
      let isCollapsed := includes (collapsedTodoIds prev) todoId in
      with_collapsedTodoIds
        (if isCollapsed then filter (λ id, id ≠ todoId) (collapsedTodoIds prev)
         else collapsedTodoIds prev ++ [todoId])
        prev
  end.

(** ** storage.ts *)

Definition createInitialState {S} : AppStateOf S :=
  mkState ∅ ∅ [] [] (mkSettings "" DEFAULT_MODEL) APP_SCHEMA_VERSION.

(** [v !== k] negated, for a number constant [k]: [v] is a number equal
    to [k]. *)
Definition strict_equals_number (v : value) (k : Z) : bool :=
  match v with
  | VNumber (Finite a d) => a =? k * Z.pos d
  | _ => false
  end.

(** [l.filter((x): x is string => typeof x === "string")]. *)
Definition filter_strings (l : list value) : list string :=
  omap (λ v, match v with VString s => Some s | _ => None end) l.

Definition array_items (v : value) : list value :=
  match v with VArray items => items | _ => [] end.

Definition string_or (v : value) (fallback : string) : string :=
  match v with VString s => s | _ => fallback end.

(** The record built for one entry of [raw.todos]; [now] stands for
    [new Date().toISOString()]. *)
Definition normalize_todo (now : string) (id : string) (v : value) : Todo.t :=
  Todo.mk
    (string_or (get v "id") id)
    (string_or (get v "text") "")
    (clampPriority (get v "priority"))
    (truthy (get v "completed"))
    (string_or (get v "createdAt") now)
    (if Array_isArray (get v "subTaskIds")
     then filter_strings (array_items (get v "subTaskIds")) else []).

Definition normalize_todos (now : string) (rawTodos : value) : gmap string Todo.t :=
  foldl (λ normalizedTodos '(id, v),
           if negb (isObject v) then normalizedTodos
           else <[id := normalize_todo now id v]> normalizedTodos)
        ∅ (entries rawTodos).

Definition normalize_settings (rawSettings : value) : AppSettings :=
  let key := get rawSettings "openaiApiKey" in
  let model := get rawSettings "model" in
  mkSettings (string_or key "")
    (match model with
     | VString m => if negb (is_empty (trim m)) then m else DEFAULT_MODEL
     | _ => DEFAULT_MODEL
     end).

Definition migrateState (now : string) (raw : value) : AppStateOf value :=
  if negb (isObject raw) then createInitialState
  else
    let schemaVersion := get raw "schemaVersion" in
    if negb (strict_equals_number schemaVersion APP_SCHEMA_VERSION) then createInitialState
    else
      let next : AppStateOf value := createInitialState in
      let next :=
        if isObject (get raw "todos")
        then with_todos (normalize_todos now (get raw "todos")) next else next in
      let next :=
        if isObject (get raw "subTasks")
        then with_subTasks (list_to_map (entries (get raw "subTasks"))) next else next in
      let next :=
        if Array_isArray (get raw "todoOrder")
        then with_todoOrder (filter_strings (array_items (get raw "todoOrder"))) next
        else next in
      let next :=
        if Array_isArray (get raw "collapsedTodoIds")
        then with_collapsedTodoIds
               (filter_strings (array_items (get raw "collapsedTodoIds"))) next
        else next in
      let next :=
        if isObject (get raw "settings")
        then with_settings (normalize_settings (get raw "settings")) next else next in
      mkState (todos next) (subTasks next) (todoOrder next) (collapsedTodoIds next)
        (settings next) APP_SCHEMA_VERSION.

(** A value that has the shape of the [SubTask] type. *)
Definition as_SubTask (v : value) : option SubTask.t :=
  match v with
  | VObject _ =>
      match get v "id", get v "parentId", get v "text", get v "completed",
            get v "createdAt", get v "source" with
      | VString i, VString p, VString t, VBool c, VString d, VString src =>
          if bool_decide (src = "ai") then Some (SubTask.mk i p t c d) else None
      | _, _, _, _, _, _ => None
      end
  | _ => None
  end.

(** A loaded state read at its declared type: defined when every sub-task
    entry has the declared shape. *)
Definition typed (st : AppStateOf value) : option AppState :=
  m ← mapM (λ '(k, v), s ← as_SubTask v; Some (k, s)) (map_to_list (subTasks st));
  Some (with_subTasks (list_to_map m : gmap string SubTask.t) st).

Section Storage.

(** [JSON.parse]: [None] when it throws. *)
Variable JSON_parse : string → option value.

(** [loadState], given what [localStorage.getItem(STORAGE_KEY)] returned. *)
Definition loadState (now : string) (item : option string) : AppStateOf value :=
  match item with
  | None => createInitialState
  | Some raw =>
      if is_empty raw then createInitialState
      else match JSON_parse raw with
           | Some parsed => migrateState now parsed
           | None => createInitialState
           end
  end.

End Storage.

(** ** openai.ts *)

Inductive AppErrorCode := MISSING_API_KEY | OPENAI_API_ERROR | INVALID_JSON.

(** What a call can throw: an [AppError], or a [TypeError] raised by the
    runtime (a property read on [null], a failed [fetch]). *)
Inductive exn :=
  | AppError (code : AppErrorCode) (message : string)
  | TypeError.

(** The content of a request to the endpoint. The two prompts and the JSON
    schema are fixed texts per kind of request and are left out. *)
Inductive request_body :=
  | SubtasksRequest (parentTodoText : string) (existingTexts : gset string)
  | TodoOrderRequest (todos : list (string * string)).

Record request := mkRequest {
  request_apiKey : string;
  request_model : string;
  request_body_of : request_body;
}.

(** What [fetch] gives back: a rejection, or a response with its [ok] flag,
    its status, and the results of [text()] and [json()] ([None] when they
    reject). *)
Inductive fetch_outcome :=
  | Rejected
  | Response (ok : bool) (status : Z) (text : option string) (json : option value).

(** An asynchronous computation that issues [fetch] calls. *)
Inductive prog (A : Type) :=
  | Ret (a : A)
  | Throw (e : exn)
  | Fetch (req : request) (k : fetch_outcome → prog A).
Arguments Ret {A}.
Arguments Throw {A}.
Arguments Fetch {A}.

Fixpoint bind {A B} (p : prog A) (f : A → prog B) : prog B :=
  match p with
  | Ret a => f a
  | Throw e => Throw e
  | Fetch req k => Fetch req (λ r, bind (k r) f)
  end.

Definition lift {A} (r : exn + A) : prog A :=
  match r with inl e => Throw e | inr a => Ret a end.


(** How a computation settles when the network answers by [net]. *)
Fixpoint settle {A} (net : request → fetch_outcome) (p : prog A) : exn + A :=
  match p with
  | Ret a => inr a
  | Throw e => inl e
  | Fetch req k => settle net (k (net req))
  end.

Definition normalizeApiKey (apiKey : string) : exn + string :=
  let normalized := trim apiKey in
  if is_empty normalized
  then inl (AppError MISSING_API_KEY "OpenAI APIキーが設定されていません。")
  else inr normalized.

(** The first element on which [f] answers. *)
Definition first_some {A B} (f : A → option B) (l : list A) : option B :=
  head (omap f l).

(** The inner loop body of [toJsonText]. *)
Definition content_text (contentItem : value) : option string :=
  if truthy contentItem && typeof_object contentItem && has_property contentItem "text"
  then match get contentItem "text" with
       | VString text => if negb (is_empty (trim text)) then Some text else None
       | _ => None
       end
  else None.

(** The outer loop body of [toJsonText]. *)
Definition output_text (outputItem : value) : option string :=
  if truthy outputItem && typeof_object outputItem && has_property outputItem "content"
     && Array_isArray (get outputItem "content")
  then first_some content_text (array_items (get outputItem "content"))
  else None.

Definition toJsonText (payload : value) : exn + string :=
  if negb (truthy payload) || negb (typeof_object payload)
  then inl (AppError INVALID_JSON "AI応答が空です。")
  else
    let scan :=
      match (if Array_isArray (get payload "output")
             then first_some output_text (array_items (get payload "output"))
             else None) with
      | Some text => inr text
      | None => inl (AppError INVALID_JSON "AI応答のJSONを読み取れませんでした。")
      end in
    match get payload "output_text" with
    | VString s => if negb (is_empty (trim s)) then inr s else scan
    | _ => scan
    end.

Definition callResponsesApi (apiKey model : string) (body : request_body) : prog value :=
  Fetch (mkRequest apiKey (trim model) body)
    (λ r, match r with
          | Rejected => Throw TypeError
          | Response ok status text json =>
              if negb ok then
                let detail := default "" text in
                Throw (AppError OPENAI_API_ERROR
                         ("OpenAI APIエラー: " +:+ pretty status
                            +:+ (if negb (is_empty detail) then " " +:+ detail else "")))
              else match json with
                   | Some payload => Ret payload
                   | None => Throw (AppError INVALID_JSON
                                      "OpenAI APIレスポンスがJSONではありません。")
                   end
          end).

(** A property read [v.k] on any value: it throws on [null] and [undefined].
    The names read this way are no members of a built-in prototype. *)
Definition read_property (v : value) (k : string) : exn + value :=
  match v with
  | VUndefined | VNull => inl TypeError
  | _ => inr (get v k)
  end.

Record RankTodosResult := mkRank {
  orderedIds : list string;
  priorities : gmap string Z;
}.

(** The sanitising loop of [generateSubTasks], from the state
    ([seen], [newResults]) on. *)
Fixpoint collect_subtasks (existingTextSet : gset string) (items : list value)
    (seen : gset string) (newResults : list string) : exn + list string :=
  match items with
  | [] => inr newResults
  | item :: rest =>
      match read_property item "text" with
      | inl e => inl e
      | inr t =>
          let text := match t with VString s => trim s | _ => "" end in
          if is_empty text then collect_subtasks existingTextSet rest seen newResults
          else if bool_decide (text ∈ existingTextSet) || bool_decide (text ∈ seen)
          then collect_subtasks existingTextSet rest seen newResults
          else collect_subtasks existingTextSet rest ({[text]} ∪ seen) (newResults ++ [text])
      end
  end.

(** The sanitising loop of [rankTodosByAi], from the state
    ([seen], [orderedIds], [priorities]) on. *)
Fixpoint collect_ranks (inputIds : gset string) (items : list value)
    (seen : gset string) (acc : RankTodosResult) : RankTodosResult :=
  match items with
  | [] => acc
  | item :: rest =>
      if negb (truthy item) || negb (typeof_object item) || negb (is_string (get item "id"))
      then collect_ranks inputIds rest seen acc
      else
        let id := string_or (get item "id") "" in
        if negb (bool_decide (id ∈ inputIds)) || bool_decide (id ∈ seen)
        then collect_ranks inputIds rest seen acc
        else collect_ranks inputIds rest ({[id]} ∪ seen)
               (mkRank (orderedIds acc ++ [id])
                  (<[id := clampRankPriority (get item "priority")]> (priorities acc)))
  end.

Section Protocol.

Variable JSON_parse : string → option value.

(** [try { JSON.parse(toJsonText(payload)) } catch { ... }]: [None] when
    either step throws. *)
Definition parse_model_json (payload : value) : option value :=
  match toJsonText payload with
  | inl _ => None
  | inr text => JSON_parse text
  end.

Definition generateSubTasks (apiKey model parentTodoText : string)
    (existingSubTaskTexts : list string) : prog (list string) :=
  bind (lift (normalizeApiKey apiKey)) (λ apiKey,
  let existingTextSet : gset string :=
    list_to_set (filter (λ s, negb (is_empty s)) (trim <$> existingSubTaskTexts)) in
  bind (callResponsesApi apiKey model (SubtasksRequest parentTodoText existingTextSet))
    (λ payload,
  match parse_model_json payload with
  | None => Throw (AppError INVALID_JSON "AI応答JSONの解析に失敗しました。")
  | Some modelJson =>
      bind (lift (read_property modelJson "subtasks")) (λ subtasks,
      if negb (Array_isArray subtasks)
      then Throw (AppError INVALID_JSON "AI応答にsubtasks配列がありません。")
      else
        bind (lift (collect_subtasks existingTextSet (array_items subtasks) ∅ []))
          (λ newResults, Ret (take 4 newResults)))
  end)).

Definition rankTodosByAi (apiKey model : string) (todos : list (string * string))
  : prog RankTodosResult :=
  bind (lift (normalizeApiKey apiKey)) (λ apiKey,
  if Z.of_nat (length todos) <=? 1 then
    Ret (mkRank (fst <$> todos)
           (match head todos with
            | Some single => {[ fst single := 3 ]}
            | None => ∅
            end))
  else
    bind (callResponsesApi apiKey model (TodoOrderRequest todos)) (λ payload,
    match parse_model_json payload with
    | None => Throw (AppError INVALID_JSON "AI応答JSONの解析に失敗しました。")
    | Some modelJson =>
        bind (lift (read_property modelJson "ordered")) (λ ordered,
        if negb (Array_isArray ordered)
        then Throw (AppError INVALID_JSON "AI応答にordered配列がありません。")
        else
          let inputIds : gset string := list_to_set (fst <$> todos) in
          Ret (collect_ranks inputIds (array_items ordered) ∅ (mkRank [] ∅)))
    end)).

End Protocol.

(** * Specification-level notions *)

(** The white-space code points of ECMAScript, as UTF-8 byte sequences. *)
Definition white_space : list (list N) :=
  [ [9]; [10]; [11]; [12]; [13]; [32]; [194; 160]; [225; 154; 128];
    [226; 128; 128]; [226; 128; 129]; [226; 128; 130]; [226; 128; 131];
    [226; 128; 132]; [226; 128; 133]; [226; 128; 134]; [226; 128; 135];
    [226; 128; 136]; [226; 128; 137]; [226; 128; 138]; [226; 128; 168];
    [226; 128; 169]; [226; 128; 175]; [226; 129; 159]; [227; 128; 128];
    [239; 187; 191] ]%N.

(** A byte string made of white space only (possibly empty). *)
Inductive blank : list N → Prop :=
  | blank_nil : blank []
  | blank_app w l : w ∈ white_space → blank l → blank (w ++ l).

(** A number that is the integer [z]. *)
Definition is_integer (n : number) (z : Z) : Prop :=
  match n with
  | Finite a d => a = z * Z.pos d
  | _ => False
  end.


(** The operations of the state engine, with their arguments. *)
Inductive operation :=
  | CreateTodo (id createdAt text : string)
  | ToggleTodoCompleted (todoId : string)
  | DeleteTodo (todoId : string)
  | AddGeneratedSubTasks (fresh : nat → string * string) (todoId : string)
      (items : list string)
  | ToggleSubTaskCompleted (subTaskId : string)
  | UpdateTodoText (todoId text : string)
  | UpdateSubTaskText (subTaskId text : string)
  | DeleteSubTask (subTaskId : string)
  | UpdateSettings (partial : PartialSettings)
  | ClearSettings
  | ReorderTodos (orderedTodoIds : list string) (priorities : option (gmap string Z))
  | MoveTodoToIndex (todoId : string) (targetIndex : Z)
  | ToggleTodoCollapsed (todoId : string).

Definition apply (op : operation) (st : AppState) : AppState :=
  match op with
  | CreateTodo id createdAt text => createTodo id createdAt text st
  | ToggleTodoCompleted todoId => toggleTodoCompleted todoId st
  | DeleteTodo todoId => deleteTodo todoId st
  | AddGeneratedSubTasks fresh todoId items => addGeneratedSubTasks fresh todoId items st
  | ToggleSubTaskCompleted subTaskId => toggleSubTaskCompleted subTaskId st
  | UpdateTodoText todoId text => updateTodoText todoId text st
  | UpdateSubTaskText subTaskId text => updateSubTaskText subTaskId text st
  | DeleteSubTask subTaskId => deleteSubTask subTaskId st
  | UpdateSettings partial => updateSettings partial st
  | ClearSettings => clearSettings st
  | ReorderTodos orderedTodoIds priorities => reorderTodos orderedTodoIds priorities st
  | MoveTodoToIndex todoId targetIndex => moveTodoToIndex todoId targetIndex st
  | ToggleTodoCollapsed todoId => toggleTodoCollapsed todoId st
  end.




(** Each element's first occurrence, in order: what is left of [l] once the
    elements of [seen] and the repetitions are dropped. *)
Fixpoint first_occurrences_from (seen : list string) (l : list string) : list string :=
  match l with
  | [] => []
  | x :: r =>
      if bool_decide (x ∈ seen) then first_occurrences_from seen r
      else x :: first_occurrences_from (x :: seen) r
  end.
Definition first_occurrences (l : list string) : list string :=
  first_occurrences_from [] l.

(** A todo of the mapping that is not completed, or that is completed. *)
Definition incomplete_in (m : gmap string Todo.t) (id : string) : Prop :=
  match m !! id with Some t => Todo.completed t = false | None => False end.
Definition complete_in (m : gmap string Todo.t) (id : string) : Prop :=
  match m !! id with Some t => Todo.completed t = true | None => False end.

#[global] Instance incomplete_in_dec m id : Decision (incomplete_in m id).
Proof. unfold incomplete_in. destruct (m !! id); apply _. Defined.
#[global] Instance complete_in_dec m id : Decision (complete_in m id).
Proof. unfold complete_in. destruct (m !! id); apply _. Defined.

(** The priority a todo gets from a table of priorities. *)
Definition overwrite_priority (ps : gmap string Z) (i : string) (t : Todo.t) : Todo.t :=
  match ps !! i with
  | Some p => Todo.with_priority p t
  | None => t
  end.


(** *** Sample states *)

Definition sample_settings : AppSettings := mkSettings "" DEFAULT_MODEL.

Definition sample_todo (id : string) (completed : bool) (subTaskIds : list string)
  : Todo.t :=
  Todo.mk id id 0 completed "2026-01-01T00:00:00.000Z" subTaskIds.

Definition sample_subTask (id parentId : string) : SubTask.t :=
  SubTask.mk id parentId id false "2026-01-01T00:00:00.000Z".

(** A and B incomplete, C complete, in the order [A, B, C]. *)
Definition state_ABC : AppState :=
  mkState
    (list_to_map [("A", sample_todo "A" false []); ("B", sample_todo "B" false []);
                  ("C", sample_todo "C" true [])])
    ∅ ["A"; "B"; "C"] [] sample_settings 1.

(** Four incomplete todos in the order [A, B, C, D]. *)
Definition state_ABCD : AppState :=
  mkState
    (list_to_map [("A", sample_todo "A" false []); ("B", sample_todo "B" false []);
                  ("C", sample_todo "C" false []); ("D", sample_todo "D" false [])])
    ∅ ["A"; "B"; "C"; "D"] [] sample_settings 1.

(** One todo T with three incomplete sub-tasks. *)
Definition state_T3 : AppState :=
  mkState
    (list_to_map [("T", sample_todo "T" false ["s1"; "s2"; "s3"])])
    (list_to_map [("s1", sample_subTask "s1" "T"); ("s2", sample_subTask "s2" "T");
                  ("s3", sample_subTask "s3" "T")])
    ["T"] [] sample_settings 1.

(** A stored snapshot of the current schema version whose [todoOrder]
    repeats an id and names an id that is no todo, and the state it loads
    to. *)
Definition corrupt_snapshot : value :=
  VObject [("schemaVersion", VNumber (of_Z 1));
           ("todos", VObject [("A", VObject [("id", VString "A"); ("text", VString "A");
                                            ("priority", VNumber (of_Z 0));
                                            ("completed", VBool false);
                                            ("createdAt", VString "2026-01-01T00:00:00.000Z");
                                            ("subTaskIds", VArray [])])]);
           ("subTasks", VObject []);
           ("todoOrder", VArray [VString "A"; VString "A"; VString "X"]);
           ("collapsedTodoIds", VArray [])].

Definition corrupt_state : AppState :=
  mkState (list_to_map [("A", sample_todo "A" false [])]) ∅ ["A"; "A"; "X"] []
    sample_settings 1.

(** *** Sanitised model output, in the specification's words *)

(** The text of one decoded entry, trimmed; empty when it has no string
    text. *)
Definition entry_text (item : value) : string :=
  match get item "text" with VString s => trim s | _ => "" end.

(** Entries trimmed, the empty ones and those equal to a trimmed existing
    text dropped, repetitions dropped, at most four kept. *)
Definition sanitized_subtasks (existingSubTaskTexts : list string) (items : list value)
  : list string :=
  take 4
    (first_occurrences
       (filter (λ t, t ≠ "" ∧ t ∉ trim <$> existingSubTaskTexts) (entry_text <$> items))).





(** *** Sample traffic *)

Definition dq : string := String "034"%char "".

(** A parser that knows the listed texts only. *)
Definition sample_parse (table : list (string * value)) (text : string) : option value :=
  (list_to_map table : gmap string value) !! text.

(** An endpoint that answers every request with the given output text. *)
Definition sample_net (output_text : string) (req : request) : fetch_outcome :=
  Response true 200 None (Some (VObject [("output_text", VString output_text)])).

(** [{"subtasks":[null]}] *)
Definition text_null_entry : string :=
  "{" +:+ dq +:+ "subtasks" +:+ dq +:+ ":[null]}".
Definition json_null_entry : value := VObject [("subtasks", VArray [VNull])].

(** [{"subtasks":[{"text":"buy milk"},{"text":"call mom"},{"text":"call mom"}]}] *)
Definition text_milk : string :=
  "{" +:+ dq +:+ "subtasks" +:+ dq +:+ ":[{" +:+ dq +:+ "text" +:+ dq +:+ ":"
  +:+ dq +:+ "buy milk" +:+ dq +:+ "},{" +:+ dq +:+ "text" +:+ dq +:+ ":"
  +:+ dq +:+ "call mom" +:+ dq +:+ "},{" +:+ dq +:+ "text" +:+ dq +:+ ":"
  +:+ dq +:+ "call mom" +:+ dq +:+ "}]}".
Definition json_milk : value :=
  VObject [("subtasks", VArray [VObject [("text", VString "buy milk")];
                                VObject [("text", VString "call mom")];
                                VObject [("text", VString "call mom")]])].


(** A stored snapshot of the current schema version whose sub-task mapping
    holds a number: [{"schemaVersion":1,"subTasks":{"s1":42}}]. *)
Definition unsanitized_snapshot : value :=
  VObject [("schemaVersion", VNumber (of_Z 1));
           ("subTasks", VObject [("s1", VNumber (of_Z 42))])].

(** * Properties *)

(** ** Priority clamps *)

Lemma Number_isInteger_spec n :
  Number_isInteger n = true ↔ ∃ z, is_integer n z.
Proof.
  destruct n as [| neg | a d]; simpl.
  - split; [discriminate | intros [? []]].
  - split; [discriminate | intros [? []]].
  - rewrite bool_decide_eq_true. split.
    + intros H. exists (a / Z.pos d).
      rewrite Z.mul_comm. apply Z.div_exact; lia.
    + intros [z ->]. apply Z.mod_mul. lia.
Qed.

Lemma is_integer_to_Z n z : is_integer n z → to_Z n = z.
Proof.
  destruct n as [| neg | a d]; simpl; try tauto.
  intros ->. apply Z.div_mul. lia.
Qed.

Lemma is_integer_le n z k : is_integer n z → num_le n k = bool_decide (z ≤ k).
Proof.
  destruct n as [| neg | a d]; simpl; try tauto.
  intros ->. case_bool_decide; [apply Z.leb_le | apply Z.leb_gt]; nia.
Qed.

Lemma is_integer_ge n z k : is_integer n z → num_ge n k = bool_decide (k ≤ z).
Proof.
  destruct n as [| neg | a d]; simpl; try tauto.
  intros ->. case_bool_decide; [apply Z.leb_le | apply Z.leb_gt]; nia.
Qed.

Lemma clampPriority_integer v z :
  is_integer (Number v) z → clampPriority v = Z.max 0 (Z.min 5 z).
Proof.
  intros H. unfold clampPriority.
  assert (Number_isInteger (Number v) = true) as -> by (apply Number_isInteger_spec; eauto).
  rewrite !(is_integer_le _ z), (is_integer_ge _ z), (is_integer_to_Z _ z) by done.
  simpl. repeat case_bool_decide; lia.
Qed.


Lemma clampPriority_range v : 0 ≤ clampPriority v ≤ 5.
Proof.
  destruct (Number_isInteger (Number v)) eqn:E.
  - apply Number_isInteger_spec in E as [z Hz].
    rewrite (clampPriority_integer v z Hz). lia.
  - unfold clampPriority. rewrite E. simpl. lia.
Qed.




(** ** The credential check *)

Lemma strip_ws_head_white w l : w ∈ white_space → strip_ws_head (w ++ l) = Some l.
Proof.
  unfold white_space. rewrite !elem_of_cons, elem_of_nil.
  intros H. repeat (destruct H as [-> | H]; [reflexivity |]). done.
Qed.

Lemma white_space_length w : w ∈ white_space → (0 < length w)%nat.
Proof.
  unfold white_space. rewrite !elem_of_cons, elem_of_nil.
  intros H. repeat (destruct H as [-> | H]; [simpl; lia |]). done.
Qed.

Lemma strip_while_blank l :
  blank l → ∀ n, (length l ≤ n)%nat → strip_while strip_ws_head n l = [].
Proof.
  induction 1 as [| w l Hw Hl IH]; intros n Hn.
  - by destruct n.
  - pose proof (white_space_length w Hw). rewrite length_app in Hn.
    destruct n as [| n]; [lia |]. simpl.
    rewrite strip_ws_head_white by done. apply IH. lia.
Qed.

Lemma trim_blank s : blank (bytes_of s) → trim s = "".
Proof.
  intros H. unfold trim. by rewrite strip_while_blank.
Qed.

Lemma normalizeApiKey_blank apiKey :
  blank (bytes_of apiKey) →
  normalizeApiKey apiKey = inl (AppError MISSING_API_KEY "OpenAI APIキーが設定されていません。").
Proof. intros H. unfold normalizeApiKey. by rewrite trim_blank. Qed.

(** C10. In [generateSubTasks] and in [rankTodosByAi] the credential check
    comes first: when the key is empty or made of white space only, the call
    throws the missing-credential error ([MISSING_API_KEY]) whatever the other
    arguments are, before any request is built; in particular
    [rankTodosByAi] throws for no todo and for one todo instead of returning
    the shortcut result. *)
Theorem credential_check_first (JSON_parse : string → option value) (apiKey : string) :
  blank (bytes_of apiKey) →
  (∀ model parentTodoText existingSubTaskTexts,
      generateSubTasks JSON_parse apiKey model parentTodoText existingSubTaskTexts
      = Throw (AppError MISSING_API_KEY "OpenAI APIキーが設定されていません。"))
  ∧ (∀ model todos,
      rankTodosByAi JSON_parse apiKey model todos
      = Throw (AppError MISSING_API_KEY "OpenAI APIキーが設定されていません。")).
Proof.
  intros H. split; intros.
  - unfold generateSubTasks. by rewrite normalizeApiKey_blank.
  - unfold rankTodosByAi. by rewrite normalizeApiKey_blank.
Qed.

Lemma credential_check_first_witness :
  blank (bytes_of "  ")
  ∧ rankTodosByAi (λ _, None) "  " "gpt-4.1-mini" [("A", "write report")]
    = Throw (AppError MISSING_API_KEY "OpenAI APIキーが設定されていません。")
  ∧ rankTodosByAi (λ _, None) "  " "gpt-4.1-mini" []
    = Throw (AppError MISSING_API_KEY "OpenAI APIキーが設定されていません。").
Proof.
  assert (blank (bytes_of "  ")) as H.
  { apply (blank_app [32%N] [32%N]); [do 5 right; left |].
    apply (blank_app [32%N] []); [do 5 right; left | constructor]. }
  split; [exact H |].
  split; apply (credential_check_first (λ _, None) "  " H).
Defined.

(** ** Loops over the sub-task mapping *)


Lemma with_completed_id (s : SubTask.t) :
  SubTask.completed s = true → SubTask.with_completed true s = s.
Proof. destruct s; simpl; by intros ->. Qed.

Lemma complete_subTask_lookup (m : gmap string SubTask.t) (k i : string) :
  complete_subTask m k !! i
  = if decide (i = k) then SubTask.with_completed true <$> m !! i else m !! i.
Proof.
  unfold complete_subTask. case_decide as E.
  - subst i. destruct (m !! k) as [s |] eqn:Hk; [| by rewrite Hk].
    destruct (SubTask.completed s) eqn:Hc.
    + rewrite Hk. simpl. by rewrite with_completed_id.
    + by rewrite lookup_insert_eq.
  - destruct (m !! k) as [s |] eqn:Hk; [| done].
    destruct (SubTask.completed s); [done |]. by rewrite lookup_insert_ne.
Qed.

Lemma foldl_complete_lookup (l : list string) (m : gmap string SubTask.t) (i : string) :
  foldl complete_subTask m l !! i
  = if decide (i ∈ l) then SubTask.with_completed true <$> m !! i else m !! i.
Proof.
  revert m. induction l as [| k l IH]; intros m; cbn [foldl].
  - case_decide; [set_solver | done].
  - rewrite IH, complete_subTask_lookup.
    repeat case_decide; try done; try set_solver.
    by destruct (m !! i).
Qed.

(** ** The generation loop *)






(** ** The priority loop *)

Lemma assign_priority_lookup id p (m : gmap string Todo.t) i :
  assign_priority id p m !! i
  = if decide (i = id) then Todo.with_priority p <$> m !! i else m !! i.
Proof.
  unfold assign_priority. case_decide as E.
  - subst. destruct (m !! id) eqn:Hid; [by rewrite lookup_insert_eq | by rewrite Hid].
  - destruct (m !! id); [by rewrite lookup_insert_ne | done].
Qed.


Lemma map_fold_assign_priority (ps : gmap string Z) (m : gmap string Todo.t) i :
  map_fold assign_priority m ps !! i = overwrite_priority ps i <$> m !! i.
Proof.
  unfold overwrite_priority.
  induction ps as [| k p ps Hk Hfold IH] using map_fold_fmap_ind.
  - rewrite map_fold_empty, lookup_empty. by destruct (m !! i).
  - specialize (Hfold Z _ assign_priority id m p).
    rewrite map_fmap_id in Hfold. rewrite Hfold.
    rewrite assign_priority_lookup, IH. case_decide as E.
    + subst. rewrite lookup_insert_eq, Hk. by destruct (m !! k).
    + by rewrite lookup_insert_ne.
Qed.

(** ** [indexOf], [includes], [splice] *)

Lemma indexOf_from_absent i l x : x ∉ l → indexOf_from i l x = -1.
Proof.
  revert i. induction l as [| y l IH]; intros i Hx; simpl; [done |].
  rewrite bool_decide_eq_false_2 by set_solver. apply IH. set_solver.
Qed.

Lemma indexOf_from_present i l x :
  x ∈ l →
  ∃ n : nat, indexOf_from i l x = i + Z.of_nat n
             ∧ l !! n = Some x ∧ x ∉ take n l.
Proof.
  revert i. induction l as [| y l IH]; intros i Hx; [set_solver |]. simpl.
  case_bool_decide as E.
  - subst. exists 0%nat. split_and!; [lia | done | set_solver].
  - destruct (IH (i + 1)) as (n & Hn & Hl & Ht); [set_solver |].
    exists (S n). split_and!; [lia | done |]. simpl. set_solver.
Qed.

Lemma indexOf_absent l x : x ∉ l → indexOf l x = -1.
Proof. apply indexOf_from_absent. Qed.

Lemma indexOf_present l x :
  x ∈ l → ∃ n : nat, indexOf l x = Z.of_nat n ∧ l !! n = Some x ∧ x ∉ take n l.
Proof.
  intros H. destruct (indexOf_from_present 0 l x H) as (n & ? & ? & ?).
  exists n. unfold indexOf. split_and!; [lia | done | done].
Qed.

Lemma indexOf_first l x (n : nat) :
  l !! n = Some x → x ∉ take n l → indexOf l x = Z.of_nat n.
Proof.
  intros Hl Ht.
  destruct (indexOf_present l x) as (n' & -> & Hl' & Ht').
  { by eapply list_elem_of_lookup_2. }
  f_equal. destruct (Nat.lt_trichotomy n n') as [? | [? | ?]]; [| done |].
  - exfalso. apply Ht'. apply list_elem_of_lookup. exists n.
    rewrite lookup_take_lt by lia. done.
  - exfalso. apply Ht. apply list_elem_of_lookup. exists n'.
    rewrite lookup_take_lt by lia. done.
Qed.

Lemma includes_spec l x : includes l x = true ↔ x ∈ l.
Proof. unfold includes. apply bool_decide_eq_true. Qed.

Lemma splice_remove {A} (l : list A) (i : nat) :
  (i < length l)%nat →
  splice (Z.of_nat i) 1 [] l = take i l ++ drop (S i) l.
Proof.
  intros H. unfold splice.
  rewrite (proj2 (Z.ltb_ge _ _)) by lia.
  rewrite Z.min_l by lia. rewrite Z.max_l by lia. rewrite Z.min_l by lia.
  rewrite Nat2Z.id. simpl. do 2 f_equal. lia.
Qed.

Lemma splice_insert {A} (l : list A) (i : nat) (x : A) :
  (i ≤ length l)%nat →
  splice (Z.of_nat i) 0 [x] l = take i l ++ x :: drop i l.
Proof.
  intros H. unfold splice.
  rewrite (proj2 (Z.ltb_ge _ _)) by lia.
  rewrite Z.min_l by lia. rewrite Z.max_l by lia. rewrite Z.min_l by lia.
  rewrite Nat2Z.id. simpl. do 3 f_equal. lia.
Qed.

(** ** First occurrences *)

Lemma first_occurrences_from_elem seen l x :
  x ∈ first_occurrences_from seen l ↔ x ∈ l ∧ x ∉ seen.
Proof.
  revert seen. induction l as [| y l IH]; intros seen; simpl; [set_solver |].
  case_bool_decide as E.
  - rewrite IH. set_solver.
  - rewrite elem_of_cons, IH. destruct (decide (x = y)); set_solver.
Qed.

Lemma first_occurrences_from_NoDup seen l : NoDup (first_occurrences_from seen l).
Proof.
  revert seen. induction l as [| y l IH]; intros seen; simpl; [constructor |].
  case_bool_decide as E; [apply IH |].
  constructor; [| apply IH]. rewrite first_occurrences_from_elem. set_solver.
Qed.

Lemma indexOf_app_not_in pre x r :
  x ∉ pre → indexOf (pre ++ x :: r) x = Z.of_nat (length pre).
Proof.
  intros H. apply indexOf_first.
  - by rewrite list_lookup_middle.
  - by rewrite take_app_length.
Qed.

Lemma indexOf_app_in pre x r :
  x ∈ pre → indexOf (pre ++ r) x ≠ Z.of_nat (length pre).
Proof.
  intros H. destruct (indexOf_present pre x H) as (n & Hn & Hl & Ht).
  rewrite (indexOf_first _ _ n).
  - apply lookup_lt_Some in Hl. lia.
  - rewrite lookup_app_l; [done |]. by eapply lookup_lt_Some.
  - rewrite take_app_le; [done |]. apply lookup_lt_Some in Hl. lia.
Qed.

Lemma filter_indexed_from_first (E : gset string) (L pre l seen : list string) :
  L = pre ++ l → (∀ y, y ∈ seen ↔ y ∈ pre) →
  filter_indexed_from (Z.of_nat (length pre))
    (λ id index, bool_decide (id ∈ E) && (indexOf L id =? index)) l
  = filter (λ id, id ∈ E) (first_occurrences_from seen l).
Proof.
  revert pre seen. induction l as [| x r IH]; intros pre seen HL Hseen; [done |].
  cbn [filter_indexed_from first_occurrences_from].
  assert (Z.of_nat (length pre) + 1 = Z.of_nat (length (pre ++ [x]))) as Hlen
    by (rewrite length_app; simpl; lia).
  assert (L = (pre ++ [x]) ++ r) as HL' by (by rewrite <- app_assoc).
  destruct (decide (x ∈ pre)) as [Hin | Hout].
  - rewrite (bool_decide_eq_true_2 (x ∈ seen)) by (by apply Hseen).
    rewrite (proj2 (Z.eqb_neq _ _)), andb_false_r
      by (subst L; by apply indexOf_app_in).
    rewrite Hlen. apply IH; [done |]. set_solver.
  - rewrite (bool_decide_eq_false_2 (x ∈ seen)) by (by rewrite Hseen).
    rewrite (proj2 (Z.eqb_eq _ _)), andb_true_r
      by (subst L; by apply indexOf_app_not_in).
    rewrite filter_cons. rewrite Hlen.
    rewrite (IH (pre ++ [x]) (x :: seen)); [| done | set_solver].
    by case_bool_decide; case_decide.
Qed.

Lemma filter_indexed_first (E : gset string) (l : list string) :
  filter_indexed (λ id index, bool_decide (id ∈ E) && (indexOf l id =? index)) l
  = filter (λ id, id ∈ E) (first_occurrences l).
Proof. by apply (filter_indexed_from_first E l [] l []). Qed.

Lemma filter_ext_in {A} (P Q : A → Prop) `{∀ x, Decision (P x)} `{∀ x, Decision (Q x)}
    (l : list A) :
  (∀ x, x ∈ l → P x ↔ Q x) → filter P l = filter Q l.
Proof.
  induction l as [| x l IH]; intros HPQ; [done |].
  rewrite !filter_cons. rewrite IH by (intros; apply HPQ; set_solver).
  destruct (decide (P x)) as [HP | HP], (decide (Q x)) as [HQ | HQ]; try done.
  - exfalso. apply HQ, HPQ; [set_solver | done].
  - exfalso. apply HP, HPQ; [set_solver | done].
Qed.

(** ** [reorderTodos] *)

Lemma reorderTodos_order cand ps (st : AppState) :
  todoOrder (reorderTodos cand ps st)
  = filter (λ id, id ∈ todoOrder st) (first_occurrences cand)
    ++ filter (λ id, id ∉ cand) (todoOrder st).
Proof.
  unfold reorderTodos. cbn [todoOrder with_todoOrder].
  rewrite filter_indexed_first.
  assert (filter (λ id, id ∈ (list_to_set (todoOrder st) : gset string))
            (first_occurrences cand)
          = filter (λ id, id ∈ todoOrder st) (first_occurrences cand)) as ->.
  { apply list_filter_iff. intros x. by rewrite elem_of_list_to_set. }
  f_equal. apply filter_ext_in. intros x Hx.
  rewrite negb_True, Is_true_true, includes_spec, list_elem_of_filter.
  unfold first_occurrences. rewrite first_occurrences_from_elem. set_solver.
Qed.

Lemma reorderTodos_todos cand ps (st : AppState) i :
  todos (reorderTodos cand ps st) !! i
  = match ps with
    | Some ps => overwrite_priority ps i <$> todos st !! i
    | None => todos st !! i
    end.
Proof.
  unfold reorderTodos. cbn [todos with_todoOrder with_todos].
  destruct ps; [apply map_fold_assign_priority | done].
Qed.

Lemma reorder_NoDup cand (order : list string) :
  NoDup order →
  NoDup (filter (λ id, id ∈ order) (first_occurrences cand)
         ++ filter (λ id, id ∉ cand) order).
Proof.
  intros H. apply NoDup_app. split_and!.
  - apply NoDup_filter, first_occurrences_from_NoDup.
  - intros x. rewrite !list_elem_of_filter. unfold first_occurrences.
    rewrite first_occurrences_from_elem. tauto.
  - by apply NoDup_filter.
Qed.

Lemma reorder_elem cand (order : list string) x :
  x ∈ filter (λ id, id ∈ order) (first_occurrences cand)
      ++ filter (λ id, id ∉ cand) order
  ↔ x ∈ order.
Proof.
  rewrite elem_of_app, !list_elem_of_filter. unfold first_occurrences.
  rewrite first_occurrences_from_elem.
  destruct (decide (x ∈ cand)); set_solver.
Qed.

Lemma reorder_Permutation cand (order : list string) :
  NoDup order →
  filter (λ id, id ∈ order) (first_occurrences cand)
    ++ filter (λ id, id ∉ cand) order ≡ₚ order.
Proof.
  intros H. apply NoDup_Permutation; [by apply reorder_NoDup | done |].
  apply reorder_elem.
Qed.

(** ** [moveTodoToIndex] *)

Lemma moveTodoToIndex_noop todoId targetIndex (st : AppState) :
  todoId ∉ todoOrder st ∨ targetIndex < 0
  ∨ Z.of_nat (length (todoOrder st)) < targetIndex →
  moveTodoToIndex todoId targetIndex st = st.
Proof.
  intros H. unfold moveTodoToIndex.
  destruct (targetIndex <? 0) eqn:E1; [done |]. apply Z.ltb_ge in E1.
  destruct (decide (todoId ∈ todoOrder st)) as [Hin | Hout].
  - destruct H as [? | [? | H]]; [done | lia |].
    rewrite (proj2 (Z.ltb_lt _ _) H). by rewrite orb_true_r.
  - by rewrite indexOf_absent.
Qed.

Lemma moveTodoToIndex_move todoId targetIndex (st : AppState) (i : nat) :
  todoOrder st !! i = Some todoId → todoId ∉ take i (todoOrder st) →
  0 ≤ targetIndex ≤ Z.of_nat (length (todoOrder st)) →
  let rest := take i (todoOrder st) ++ drop (S i) (todoOrder st) in
  let effective :=
    Z.to_nat (if Z.of_nat i <? targetIndex then targetIndex - 1 else targetIndex) in
  (effective ≤ length rest)%nat
  ∧ moveTodoToIndex todoId targetIndex st
    = with_todoOrder (take effective rest ++ todoId :: drop effective rest) st.
Proof.
  intros Hi Hfirst Hrange rest effective.
  pose proof (lookup_lt_Some _ _ _ Hi) as Hlt.
  assert (length rest = (length (todoOrder st) - 1)%nat) as Hrest.
  { unfold rest. rewrite length_app, length_take, length_drop. lia. }
  assert (effective ≤ length rest)%nat as Heff.
  { unfold effective. destruct (Z.of_nat i <? targetIndex) eqn:E.
    - apply Z.ltb_lt in E. lia.
    - apply Z.ltb_ge in E. lia. }
  split; [done |].
  unfold moveTodoToIndex.
  rewrite (proj2 (Z.ltb_ge _ _)) by lia.
  rewrite (indexOf_first _ _ i) by done.
  rewrite (proj2 (Z.ltb_ge _ _)) by lia.
  rewrite (proj2 (Z.ltb_ge _ _)) by lia. cbn [orb].
  rewrite splice_remove by done. fold rest.
  assert ((if Z.of_nat i <? targetIndex then targetIndex - 1 else targetIndex)
          = Z.of_nat effective) as ->.
  { unfold effective. destruct (Z.of_nat i <? targetIndex) eqn:E.
    - apply Z.ltb_lt in E. lia.
    - lia. }
  by rewrite splice_insert.
Qed.



(** ** [toggleTodoCompleted] *)


(** ** Preservation of the invariants *)






















(** ** [toggleTodoCompleted]: the contract *)

Lemma corrupt_state_loaded now :
  typed (migrateState now corrupt_snapshot) = Some corrupt_state.
Proof. vm_compute. reflexivity. Qed.

Lemma is_unchecked_spec m id : is_unchecked m id ↔ incomplete_in m id.
Proof.
  unfold is_unchecked, incomplete_in. destruct (m !! id) as [t |]; [| done].
  destruct (Todo.completed t); simpl; naive_solver.
Qed.

Lemma is_checked_spec m id : is_checked m id ↔ complete_in m id.
Proof.
  unfold is_checked, complete_in. destruct (m !! id) as [t |]; [| done].
  destruct (Todo.completed t); simpl; naive_solver.
Qed.

Lemma toggleTodoCompleted_order todoId todo (st : AppState) :
  todos st !! todoId = Some todo → Todo.completed todo = false →
  todoOrder (toggleTodoCompleted todoId st)
  = filter (λ id, id ≠ todoId ∧ incomplete_in (todos st) id) (todoOrder st)
    ++ [todoId] ++ filter (λ id, complete_in (todos st) id) (todoOrder st).
Proof.
  intros Htodo Hc. unfold toggleTodoCompleted. rewrite Htodo, Hc.
  cbn [negb todoOrder]. rewrite !list_filter_filter. f_equal; [| f_equal].
  - apply list_filter_iff. intros id. rewrite is_unchecked_spec. tauto.
  - apply list_filter_iff. intros id. rewrite is_checked_spec.
    split; [tauto |]. intros H. split; [done |]. intros ->.
    unfold complete_in in H. rewrite Htodo in H. congruence.
Qed.

Lemma toggleTodoCompleted_cascade todoId todo (st : AppState) sid :
  todos st !! todoId = Some todo → Todo.completed todo = false →
  subTasks (toggleTodoCompleted todoId st) !! sid
  = if decide (sid ∈ Todo.subTaskIds todo)
    then SubTask.with_completed true <$> subTasks st !! sid
    else subTasks st !! sid.
Proof.
  intros Htodo Hc. unfold toggleTodoCompleted. rewrite Htodo, Hc.
  cbn [negb andb subTasks].
  destruct (Todo.subTaskIds todo) as [| x l] eqn:E.
  - rewrite decide_False by set_solver. reflexivity.
  - rewrite (proj2 (Z.ltb_lt _ _)) by (simpl; lia). apply foldl_complete_lookup.
Qed.

(** C2. For a todo of the mapping, [toggleTodoCompleted] flips its
    [completed] flag and touches no other todo. When the todo becomes
    completed, [todoOrder] becomes the other incomplete todos in their
    previous order, then this todo, then the complete todos in their previous
    order, and every sub-task listed by the todo is completed; when it becomes
    incomplete, [todoOrder] and the sub-task mapping are unchanged. With A, B
    incomplete, C complete and order [A, B, C], completing A gives
    [B, A, C]; completing a todo with three incomplete sub-tasks completes
    the three, and un-completing it leaves them completed. *)
Theorem toggleTodoCompleted_contract :
  (∀ (st : AppState) todoId todo,
      todos st !! todoId = Some todo →
      let st' := toggleTodoCompleted todoId st in
      todos st'
      = <[todoId := Todo.with_completed (negb (Todo.completed todo)) todo]> (todos st)
      ∧ collapsedTodoIds st' = collapsedTodoIds st
      ∧ settings st' = settings st
      ∧ (Todo.completed todo = false →
           todoOrder st'
           = filter (λ id, id ≠ todoId ∧ incomplete_in (todos st) id) (todoOrder st)
             ++ [todoId] ++ filter (λ id, complete_in (todos st) id) (todoOrder st)
           ∧ ∀ sid, subTasks st' !! sid
                    = if decide (sid ∈ Todo.subTaskIds todo)
                      then SubTask.with_completed true <$> subTasks st !! sid
                      else subTasks st !! sid)
      ∧ (Todo.completed todo = true →
           todoOrder st' = todoOrder st ∧ subTasks st' = subTasks st))
  ∧ todoOrder (toggleTodoCompleted "A" state_ABC) = ["B"; "A"; "C"]
  ∧ (let done := toggleTodoCompleted "T" state_T3 in
     let undone := toggleTodoCompleted "T" done in
     (Todo.completed <$> todos done !! "T") = Some true
     ∧ (∀ sid, sid ∈ ["s1"; "s2"; "s3"] →
               (SubTask.completed <$> subTasks state_T3 !! sid) = Some false
               ∧ (SubTask.completed <$> subTasks done !! sid) = Some true
               ∧ (SubTask.completed <$> subTasks undone !! sid) = Some true)
     ∧ (Todo.completed <$> todos undone !! "T") = Some false).
Proof.
  split_and!.
  - intros st todoId todo Htodo st'. split_and!.
    + unfold st', toggleTodoCompleted. by rewrite Htodo.
    + unfold st', toggleTodoCompleted. by rewrite Htodo.
    + unfold st', toggleTodoCompleted. by rewrite Htodo.
    + intros Hc. unfold st'. split; [by apply (toggleTodoCompleted_order _ todo) |].
      intros sid. by apply toggleTodoCompleted_cascade.
    + intros Hc. unfold st', toggleTodoCompleted. by rewrite Htodo, Hc.
  - reflexivity.
  - cbv zeta. split_and!; [reflexivity | | reflexivity].
    intros sid. rewrite !elem_of_cons, elem_of_nil.
    intros [-> | [-> | [-> | []]]]; split_and!; reflexivity.
Qed.

Lemma toggleTodoCompleted_contract_witness :
  todos state_ABC !! "A" = Some (sample_todo "A" false [])
  ∧ todoOrder (toggleTodoCompleted "A" state_ABC)
    = filter (λ id, id ≠ "A" ∧ incomplete_in (todos state_ABC) id) (todoOrder state_ABC)
      ++ ["A"] ++ filter (λ id, complete_in (todos state_ABC) id) (todoOrder state_ABC).
Proof.
  assert (todos state_ABC !! "A" = Some (sample_todo "A" false [])) as Htodo
    by reflexivity.
  split; [exact Htodo |].
  destruct toggleTodoCompleted_contract as [H _].
  destruct (H state_ABC "A" (sample_todo "A" false []) Htodo) as (_ & _ & _ & Hc & _).
  exact (proj1 (Hc eq_refl)).
Defined.

(** ** [reorderTodos]: the contract *)

(** C3, as the code has it. For every state and candidate list, the new
    [todoOrder] is the candidate restricted to the ids of the current
    [todoOrder], first occurrences only, followed by the current ids that the
    candidate does not name, in their order. It has exactly the ids of
    the current [todoOrder]; when the current [todoOrder] is duplicate-free,
    it is a duplicate-free permutation of it. Given priorities, every listed
    todo gets the given value as it is. With order [A, B, C, D] and
    candidate [C, C, Z, A] the result is [C, A, B, D]. *)
Theorem reorderTodos_contract :
  (∀ (st : AppState) orderedIds priorities,
      let st' := reorderTodos orderedIds priorities st in
      todoOrder st'
      = filter (λ id, id ∈ todoOrder st) (first_occurrences orderedIds)
        ++ filter (λ id, id ∉ orderedIds) (todoOrder st)
      ∧ (∀ id, id ∈ todoOrder st' ↔ id ∈ todoOrder st)
      ∧ (NoDup (todoOrder st) → NoDup (todoOrder st') ∧ todoOrder st' ≡ₚ todoOrder st)
      ∧ (∀ id, todos st' !! id
               = match priorities with
                 | Some ps => overwrite_priority ps id <$> todos st !! id
                 | None => todos st !! id
                 end))
  ∧ todoOrder (reorderTodos ["C"; "C"; "Z"; "A"] None state_ABCD) = ["C"; "A"; "B"; "D"]
  ∧ (Todo.priority <$> todos (reorderTodos [] (Some {[ "A" := 99 ]}) state_ABCD) !! "A")
    = Some 99.
Proof.
  split_and!.
  - intros st cand ps st'. unfold st'. rewrite reorderTodos_order. split_and!.
    + done.
    + apply reorder_elem.
    + intros Hnd. split; [by apply reorder_NoDup | by apply reorder_Permutation].
    + apply reorderTodos_todos.
  - reflexivity.
  - rewrite reorderTodos_todos. reflexivity.
Qed.

Lemma reorderTodos_contract_witness :
  NoDup (todoOrder state_ABCD)
  ∧ todoOrder (reorderTodos ["C"; "C"; "Z"; "A"] None state_ABCD)
    ≡ₚ todoOrder state_ABCD.
Proof.
  assert (NoDup (todoOrder state_ABCD)) as H.
  { apply (bool_decide_unpack (NoDup (todoOrder state_ABCD))). vm_compute. exact I. }
  split; [exact H |].
  destruct reorderTodos_contract as [Hc _].
  destruct (Hc state_ABCD ["C"; "C"; "Z"; "A"] None) as (_ & _ & Hp & _).
  exact (proj2 (Hp H)).
Defined.

(** C3 as stated fails on a state whose [todoOrder] repeats an id, such as
    the one a stored snapshot with a repeated entry loads to: the result
    keeps the repetition. *)
Lemma reorderTodos_keeps_duplicates :
  typed (migrateState "" corrupt_snapshot) = Some corrupt_state
  ∧ todoOrder (reorderTodos [] None corrupt_state) = ["A"; "A"; "X"]
  ∧ ¬ NoDup (todoOrder (reorderTodos [] None corrupt_state)).
Proof.
  split_and!; [apply corrupt_state_loaded | reflexivity |].
  intros H. apply NoDup_cons_1_1 in H. apply H. set_solver.
Qed.

(** ** [moveTodoToIndex]: the contract *)

(** C7. [moveTodoToIndex] leaves the state as it is when the todo is not in
    [todoOrder], when the target index is negative, or when it exceeds the
    length of [todoOrder]. Otherwise it removes the todo from its (first)
    position [i] and puts it back at the target index counted in the list
    after removal: at [targetIndex - 1] when [i < targetIndex], at
    [targetIndex] otherwise. With order [A, B, C], moving A to index 2 gives
    [B, A, C]. *)
Theorem moveTodoToIndex_contract :
  (∀ (st : AppState) todoId targetIndex,
      (todoId ∉ todoOrder st ∨ targetIndex < 0
       ∨ Z.of_nat (length (todoOrder st)) < targetIndex →
       moveTodoToIndex todoId targetIndex st = st)
      ∧ (∀ i : nat,
           todoOrder st !! i = Some todoId → todoId ∉ take i (todoOrder st) →
           0 ≤ targetIndex ≤ Z.of_nat (length (todoOrder st)) →
           let rest := take i (todoOrder st) ++ drop (S i) (todoOrder st) in
           let effective :=
             Z.to_nat (if Z.of_nat i <? targetIndex then targetIndex - 1
                       else targetIndex) in
           (effective ≤ length rest)%nat
           ∧ moveTodoToIndex todoId targetIndex st
             = with_todoOrder (take effective rest ++ todoId :: drop effective rest) st
           ∧ todoOrder (moveTodoToIndex todoId targetIndex st) !! effective
             = Some todoId))
  ∧ todoOrder (moveTodoToIndex "A" 2 state_ABC) = ["B"; "A"; "C"].
Proof.
  split; [| reflexivity].
  intros st todoId targetIndex. split; [apply moveTodoToIndex_noop |].
  intros i Hi Hfirst Hrange rest effective.
  destruct (moveTodoToIndex_move todoId targetIndex st i Hi Hfirst Hrange) as [Hle Heq].
  fold rest effective in Hle, Heq. split_and!; [done | done |].
  rewrite Heq. cbn [todoOrder with_todoOrder].
  rewrite lookup_app_r by (rewrite length_take; lia).
  rewrite length_take, Nat.min_l by done. by rewrite Nat.sub_diag.
Qed.

Lemma moveTodoToIndex_contract_witness :
  ("Z" ∉ todoOrder state_ABC)
  ∧ moveTodoToIndex "Z" 1 state_ABC = state_ABC
  ∧ todoOrder state_ABC !! 0%nat = Some "A"
  ∧ moveTodoToIndex "A" 2 state_ABC = with_todoOrder ["B"; "A"; "C"] state_ABC.
Proof.
  destruct moveTodoToIndex_contract as [H _].
  destruct (H state_ABC "Z" 1) as [Hnoop _].
  destruct (H state_ABC "A" 2) as [_ Hmove].
  assert ("Z" ∉ todoOrder state_ABC) as HZ.
  { apply (bool_decide_unpack ("Z" ∉ todoOrder state_ABC)). vm_compute. exact I. }
  split_and!; [exact HZ | | reflexivity |].
  - apply Hnoop. left. exact HZ.
  - refine (proj1 (proj2 (Hmove 0%nat eq_refl _ _))).
    + apply (bool_decide_unpack ("A" ∉ take 0 (todoOrder state_ABC))).
      vm_compute. exact I.
    + simpl. lia.
Defined.

(** ** Operations on an id that does not exist *)




(** ** Loading *)

Lemma migrateState_reset now raw :
  isObject raw = false
  ∨ strict_equals_number (get raw "schemaVersion") APP_SCHEMA_VERSION = false →
  migrateState now raw = createInitialState.
Proof.
  intros [H | H]; unfold migrateState; rewrite H; [done |].
  by destruct (isObject raw).
Qed.

Lemma loadState_reset JSON_parse now item :
  (∀ raw, item = Some raw → raw ≠ "" →
          ∀ parsed, JSON_parse raw = Some parsed →
                    isObject parsed = false
                    ∨ strict_equals_number (get parsed "schemaVersion") APP_SCHEMA_VERSION
                      = false) →
  loadState JSON_parse now item = createInitialState.
Proof.
  intros H. unfold loadState. destruct item as [raw |]; [| done].
  destruct (is_empty raw) eqn:E; [done |].
  destruct (JSON_parse raw) as [parsed |] eqn:Hp; [| done].
  apply migrateState_reset. apply (H raw); [done | | done].
  intros ->. by vm_compute in E.
Qed.

Lemma migrateState_fields now raw :
  isObject raw = true →
  strict_equals_number (get raw "schemaVersion") APP_SCHEMA_VERSION = true →
  let st := migrateState now raw in
  todos st = (if isObject (get raw "todos")
              then normalize_todos now (get raw "todos") else ∅)
  ∧ subTasks st = (if isObject (get raw "subTasks")
                   then list_to_map (entries (get raw "subTasks")) else ∅)
  ∧ todoOrder st = (if Array_isArray (get raw "todoOrder")
                    then filter_strings (array_items (get raw "todoOrder")) else [])
  ∧ collapsedTodoIds st
    = (if Array_isArray (get raw "collapsedTodoIds")
       then filter_strings (array_items (get raw "collapsedTodoIds")) else [])
  ∧ settings st = (if isObject (get raw "settings")
                   then normalize_settings (get raw "settings")
                   else mkSettings "" DEFAULT_MODEL)
  ∧ schemaVersion st = APP_SCHEMA_VERSION.
Proof.
  intros H1 H2. unfold migrateState. rewrite H1, H2. cbn [negb].
  destruct (isObject (get raw "todos")), (isObject (get raw "subTasks")),
    (Array_isArray (get raw "todoOrder")), (Array_isArray (get raw "collapsedTodoIds")),
    (isObject (get raw "settings")); by cbn.
Qed.

Lemma normalize_todos_priority now rawTodos k t :
  normalize_todos now rawTodos !! k = Some t → 0 ≤ Todo.priority t ≤ 5.
Proof.
  unfold normalize_todos.
  assert (∀ l (m : gmap string Todo.t),
            (∀ k t, m !! k = Some t → 0 ≤ Todo.priority t ≤ 5) →
            ∀ k t, foldl (λ normalizedTodos '(id, v),
                            if negb (isObject v) then normalizedTodos
                            else <[id := normalize_todo now id v]> normalizedTodos)
                     m l !! k = Some t → 0 ≤ Todo.priority t ≤ 5) as Hfold.
  { induction l as [| [id v] l IH]; intros m Hm; [done |]. cbn [foldl].
    apply IH. destruct (isObject v); cbn [negb]; [| done].
    intros k' t'. rewrite lookup_insert_Some. intros [[_ <-] | [_ ?]]; [| eauto].
    apply clampPriority_range. }
  apply Hfold. intros k' t'. by rewrite lookup_empty.
Qed.

(** C4, the code at the failing input: the stored snapshot
    [{"schemaVersion":1,"subTasks":{"s1":42}}] has the current schema
    version, and the loaded state keeps the number 42 as the sub-task "s1":
    the sub-task mapping is taken over as it is, while the todo mapping is
    rebuilt entry by entry. *)
Theorem migrateState_keeps_raw_subTasks :
  subTasks (migrateState "" unsanitized_snapshot) !! "s1" = Some (VNumber (of_Z 42))
  ∧ as_SubTask (VNumber (of_Z 42)) = None
  ∧ typed (migrateState "" unsanitized_snapshot) = None.
Proof. split_and!; vm_compute; reflexivity. Qed.

(** ** The sub-task generation protocol *)

Lemma is_empty_spec s : is_empty s = true ↔ s = "".
Proof. unfold is_empty. apply bool_decide_eq_true. Qed.

Lemma read_property_readable item k :
  item ≠ VNull → item ≠ VUndefined → read_property item k = inr (get item k).
Proof. by destruct item. Qed.

Lemma first_occurrences_from_proper seen seen' l :
  (∀ y, y ∈ seen ↔ y ∈ seen') →
  first_occurrences_from seen l = first_occurrences_from seen' l.
Proof.
  revert seen seen'. induction l as [| x l IH]; intros seen seen' H; [done |]. simpl.
  rewrite (bool_decide_ext _ _ (H x)). case_bool_decide.
  - by apply IH.
  - f_equal. apply IH. set_solver.
Qed.

Lemma filter_first_occurrences_from (P : string → Prop) `{∀ x, Decision (P x)} seen l :
  filter P (first_occurrences_from seen l)
  = first_occurrences_from seen (filter P l).
Proof.
  revert seen. induction l as [| x l IH]; intros seen; [done |].
  rewrite filter_cons. cbn [first_occurrences_from].
  destruct (decide (P x)) as [HP | HP]; cbn [first_occurrences_from].
  - case_bool_decide; [apply IH |]. rewrite filter_cons_True by done. by rewrite IH.
  - case_bool_decide; [apply IH |]. rewrite filter_cons_False by done.
    rewrite IH. clear IH. revert seen H0.
    induction l as [| y l IH]; intros seen Hx; [done |].
    rewrite filter_cons. destruct (decide (P y)) as [HPy | HPy]; [| apply IH; done].
    cbn [first_occurrences_from].
    assert (y ≠ x) by congruence.
    rewrite (bool_decide_ext (y ∈ x :: seen) (y ∈ seen)) by set_solver.
    case_bool_decide; [by apply IH |]. f_equal.
    rewrite (first_occurrences_from_proper (y :: x :: seen) (x :: y :: seen))
      by set_solver.
    apply IH. set_solver.
Qed.

Lemma collect_subtasks_spec (E : gset string) items (seen : gset string) seenl acc :
  Forall (λ item, item ≠ VNull ∧ item ≠ VUndefined) items →
  (∀ y, y ∈ seen ↔ y ∈ seenl ∧ y ≠ "" ∧ y ∉ E) →
  collect_subtasks E items seen acc
  = inr (acc ++ filter (λ t, t ≠ "" ∧ t ∉ E)
                  (first_occurrences_from seenl (entry_text <$> items))).
Proof.
  revert seen seenl acc.
  induction items as [| item rest IH]; intros seen seenl acc Hitems Hseen.
  - simpl. by rewrite app_nil_r.
  - apply Forall_cons in Hitems as [[Hn Hu] Hrest].
    cbn [collect_subtasks fmap list_fmap first_occurrences_from].
    rewrite read_property_readable by done.
    fold (entry_text item). set (text := entry_text item).
    destruct (is_empty text) eqn:Hempty.
    { apply is_empty_spec in Hempty.
      case_bool_decide.
      - by apply IH.
      - rewrite filter_cons_False by naive_solver. apply IH; [done |].
        intros y. rewrite Hseen, elem_of_cons. naive_solver. }
    assert (text ≠ "") as Hne.
    { intros Heq. apply is_empty_spec in Heq. congruence. }
    destruct (bool_decide (text ∈ E) || bool_decide (text ∈ seen)) eqn:Hskip.
    { apply orb_true_iff in Hskip.
      rewrite !bool_decide_eq_true in Hskip.
      case_bool_decide as Hl; [by apply IH |].
      assert (text ∈ E) as HE.
      { destruct Hskip as [? | Hs]; [done |]. apply Hseen in Hs. tauto. }
      rewrite filter_cons_False by naive_solver. apply IH; [done |].
      intros y. rewrite Hseen, elem_of_cons. naive_solver. }
    apply orb_false_iff in Hskip as [HE Hs].
    rewrite bool_decide_eq_false in HE, Hs.
    rewrite bool_decide_eq_false_2 by (intros Hl; apply Hs, Hseen; auto).
    rewrite filter_cons_True by auto.
    rewrite (IH ({[text]} ∪ seen) (text :: seenl) (acc ++ [text])); [| done |].
    + by rewrite <- app_assoc.
    + intros y. rewrite elem_of_union, elem_of_singleton, Hseen, elem_of_cons.
      naive_solver.
Qed.

Lemma existing_set_spec (existing : list string) (t : string) :
  t ≠ "" →
  t ∈ (list_to_set (filter (λ s, negb (is_empty s)) (trim <$> existing)) : gset string)
  ↔ t ∈ trim <$> existing.
Proof.
  intros Hne. rewrite elem_of_list_to_set, list_elem_of_filter.
  rewrite negb_True, Is_true_true, is_empty_spec. tauto.
Qed.

Lemma generateSubTasks_sanitizes JSON_parse apiKey model parentTodoText existing
    net status body payload text modelJson items :
  trim apiKey ≠ "" →
  (∀ existingTextSet,
     net (mkRequest (trim apiKey) (trim model)
            (SubtasksRequest parentTodoText existingTextSet))
     = Response true status body (Some payload)) →
  toJsonText payload = inr text →
  JSON_parse text = Some modelJson →
  get modelJson "subtasks" = VArray items →
  Forall (λ item, item ≠ VNull ∧ item ≠ VUndefined) items →
  settle net (generateSubTasks JSON_parse apiKey model parentTodoText existing)
  = inr (sanitized_subtasks existing items).
Proof.
  intros Hkey Hnet Htext Hparse Hsub Hitems.
  unfold generateSubTasks, normalizeApiKey.
  rewrite (proj2 (bool_decide_eq_false _) Hkey : is_empty (trim apiKey) = false).
  cbn [lift bind callResponsesApi settle]. rewrite Hnet. cbn [negb bind].
  unfold parse_model_json. rewrite Htext, Hparse.
  rewrite read_property_readable
    by (intros ->; simpl in Hsub; discriminate).
  cbn [lift bind]. rewrite Hsub. cbn [Array_isArray negb array_items].
  rewrite (collect_subtasks_spec _ items ∅ []); [| done | set_solver].
  cbn [lift bind settle app]. unfold sanitized_subtasks, first_occurrences.
  do 2 f_equal. rewrite <- filter_first_occurrences_from.
  apply list_filter_iff. intros t. split.
  - intros [Hne Ht]. split; [done |]. by rewrite <- existing_set_spec.
  - intros [Hne Ht]. split; [done |]. by rewrite existing_set_spec.
Qed.

(** C6, the code at the failing input: with a valid key and an endpoint
    whose output text is [{"subtasks":[null]}], [generateSubTasks] neither
    returns a list nor fails with an [AppError]; the property read on the
    [null] entry raises a [TypeError]. *)
Theorem generateSubTasks_null_entry :
  settle (sample_net text_null_entry)
    (generateSubTasks (sample_parse [(text_null_entry, json_null_entry)])
       "sk-test" DEFAULT_MODEL "plan the trip" ["buy milk"])
  = inl TypeError.
Proof. vm_compute. reflexivity. Qed.

(** The example of the specification: existing texts {"buy milk"}, model
    output ["buy milk", "call mom", "call mom"]. *)
Lemma generateSubTasks_example :
  settle (sample_net text_milk)
    (generateSubTasks (sample_parse [(text_milk, json_milk)])
       "sk-test" DEFAULT_MODEL "errands" ["buy milk"])
  = inr ["call mom"].
Proof. vm_compute. reflexivity. Qed.

(** ** The ranking protocol *)















